(** * Path helpers of the opt_einsum contractors

    A shallow embedding of
    [tensornetwork/contractors/opt_einsum_paths/utils.py]:
    [multi_remove], [get_first_nondangling] and [get_path], together with
    the part of the network data model they read. *)

From Stdlib Require Import ZArith Lia.
From stdpp Require Import base decidable option countable list sorting gmap.

Open Scope Z_scope.

(** ** Data model *)

(** Python objects are compared by identity.  Every object carries its
    identity as a field, and references between objects (an edge's end
    points) are identities. *)
Abbreviation node_ref := positive (only parsing).

(** Modelled from the spec: an edge of [network_components], with its
    dimension and its one or two end points; [node2] is [None] on an edge
    with a single end point. *)
Record Edge := mkEdge {
  edge_id : positive;
  node1 : node_ref;
  node2 : option node_ref;
  dimension : Z
}.

Arguments mkEdge (edge_id node1)%_positive node2 dimension%_Z.

#[global] Instance Edge_eq_dec : EqDecision Edge.
Proof. solve_decision. Defined.

#[global] Instance Edge_countable : Countable Edge.
Proof.
  refine (inj_countable'
            (λ e, (edge_id e, node1 e, node2 e, dimension e))
            (λ t, let '(i, a, b, d) := t in mkEdge i a b d) _).
  by intros [].
Defined.

(** Modelled from the spec: the dangling flag of an edge, true when the edge
    has only one end point. *)
Definition is_dangling (e : Edge) : bool :=
  match node2 e with
  | None => true
  | Some _ => false
  end.

(** Modelled from the spec: the variant tag of a node. *)
Inductive NodeKind := Ordinary | Copy.

#[global] Instance NodeKind_eq_dec : EqDecision NodeKind.
Proof. solve_decision. Defined.

(** Modelled from the spec: a node of [network_components], with its ordered
    edges (one per axis) and its creation-order signature. *)
Record Node := mkNode {
  node_id : node_ref;
  signature : Z;
  kind : NodeKind;
  edges : list Edge
}.

Arguments mkNode node_id%_positive signature%_Z kind edges%_list.

#[global] Instance Node_eq_dec : EqDecision Node.
Proof. solve_decision. Defined.

(** [isinstance(node, network_components.CopyNode)] *)
Definition isinstance_CopyNode (node : Node) : bool :=
  match kind node with
  | Copy => true
  | Ordinary => false
  end.

(** Modelled from the spec: the network.  [nodes_set] is a Python set; the
    list gives its elements in iteration order, each node once. *)
Record TensorNetwork := mkNetwork {
  nodes_set : list Node
}.

(** Modelled from the spec: the query [get_all_edges], the set of the edges
    of all nodes. *)
Definition get_all_edges (net : TensorNetwork) : gset Edge :=
  ⋃ ((λ node, list_to_set (edges node)) <$> nodes_set net).

(** Modelled from the spec: the query [get_all_nondangling], those of all
    edges that are not dangling. *)
Definition get_all_nondangling (net : TensorNetwork) : gset Edge :=
  filter (λ e, is_dangling e = false) (get_all_edges net).

(** ** [multi_remove] *)

(** [[i for j, i in enumerate(elems) if j not in indices]]; [j] is the
    counter of [enumerate].  Python integers are unbounded, so the members
    of [indices] are in [Z]. *)
Fixpoint multi_remove_from {A} (j : nat) (elems : list A) (indices : list Z)
  : list A :=
  match elems with
  | [] => []
  | i :: rest =>
      if bool_decide (Z.of_nat j ∉ indices)
      then i :: multi_remove_from (S j) rest indices
      else multi_remove_from (S j) rest indices
  end.

Definition multi_remove {A} (elems : list A) (indices : list Z) : list A :=
  multi_remove_from 0 elems indices.

(** The caller's view of a call: the argument list lives in a store of list
    objects, the comprehension allocates its result as a new object and
    returns the reference. *)
Definition multi_remove_call {A} (heap : gmap positive (list A))
    (elems : positive) (indices : list Z)
  : option (gmap positive (list A) * positive) :=
  match heap !! elems with
  | None => None
  | Some l =>
      let r := fresh (dom heap) in
      Some (<[r := multi_remove l indices]> heap, r)
  end.

(** ** [get_first_nondangling] *)

(** The [for] loop over [node.edges], leaving at the first edge that is not
    dangling. *)
Fixpoint first_nondangling (es : list Edge) : option Edge :=
  match es with
  | [] => None
  | edge :: rest =>
      if negb (is_dangling edge) then Some edge else first_nondangling rest
  end.

Definition get_first_nondangling (node : Node) : option Edge :=
  first_nondangling (edges node).

(** ** [get_path] *)

(** The exceptions that can leave [get_path]: the two that its own statements
    can raise, and whatever the algorithm raises. *)
Inductive exn := AttributeError | KeyError | OptimizerError.

#[global] Instance exn_eq_dec : EqDecision exn.
Proof. solve_decision. Defined.

(** A Python node value as read from an edge's end point: [None] stands for
    Python's [None]. *)
Abbreviation py_node := (option node_ref) (only parsing).

(** The values stored under [copy_to_nodes]: the literal [{}] builds an empty
    dict, a literal [{x}] a set. *)
Inductive container :=
| PyDict
| PySet (s : gset py_node).

#[global] Instance container_eq_dec : EqDecision container.
Proof. solve_decision. Defined.

(** The three dictionaries that the loop over the copy nodes fills.  Values
    of [edge_map] are what [get_first_nondangling] returned, an edge or
    [None]. *)
Record locals := mkLocals {
  edge_map : gmap Edge (option Edge);
  node_to_copies : gmap py_node (gset node_ref);
  copy_to_nodes : gmap node_ref container
}.

Definition empty_locals : locals := mkLocals ∅ ∅ ∅.

(** Statements run over the local dictionaries and may raise; the
    dictionaries keep the contents they had when the exception was raised. *)
Definition M (A : Type) : Type := locals → (exn + A) * locals.

#[global] Instance M_ret : MRet M := λ A x st, (inr x, st).
#[global] Instance M_bind : MBind M := λ A B f m st,
  match m st with
  | (inl e, st') => (inl e, st')
  | (inr x, st') => f x st'
  end.

Definition raise {A} (e : exn) : M A := λ st, (inl e, st).
Definition read : M locals := λ st, (inr st, st).
Definition write (f : locals → locals) : M () := λ st, (inr (), f st).

Fixpoint for_each {A} (body : A → M ()) (l : list A) : M () :=
  match l with
  | [] => mret ()
  | x :: rest => body x ;; for_each body rest
  end.

(** [s.pop()]: some element of the set, [KeyError] on the empty set. *)
Definition set_pop (s : gset py_node) : M py_node :=
  match elements s with
  | [] => raise KeyError
  | x :: _ => mret x
  end.

(** [c.add(node)]: a dict has no attribute [add]. *)
Definition container_add (c : container) (node : py_node) : M container :=
  match c with
  | PyDict => raise AttributeError
  | PySet s => mret (PySet (s ∪ {[node]}))
  end.

(** Lines 63 to 70: the body of the loop over [copy.edges]. *)
Definition visit_edge (copy : Node) (edge : option Edge) (e : Edge) : M () :=
  if negb (is_dangling e) then
    write (λ st, mkLocals (<[e := edge]> (edge_map st))
                          (node_to_copies st) (copy_to_nodes st)) ;;
    node ← set_pop ({[Some (node1 e); node2 e]} ∖ {[Some (node_id copy)]});
    st ← read;
    c ← match copy_to_nodes st !! node_id copy with
        | None => raise KeyError
        | Some c => mret c
        end;
    c' ← container_add c node;
    write (λ st, mkLocals (edge_map st) (node_to_copies st)
                          (<[node_id copy := c']> (copy_to_nodes st))) ;;
    write (λ st,
      match node_to_copies st !! node with
      | Some copies =>
          mkLocals (edge_map st)
                   (<[node := copies ∪ {[node_id copy]}]> (node_to_copies st))
                   (copy_to_nodes st)
      | None =>
          mkLocals (edge_map st)
                   (<[node := {[node_id copy]}]> (node_to_copies st))
                   (copy_to_nodes st)
      end)
  else mret ().

(** Lines 61 to 70: the body of the loop over [copy_nodes.items()]. *)
Definition visit_copy (item : Node * option Edge) : M () :=
  let '(copy, edge) := item in
  write (λ st, mkLocals (edge_map st) (node_to_copies st)
                        (<[node_id copy := PyDict]> (copy_to_nodes st))) ;;
  for_each (visit_edge copy edge) (edges copy).

(** Line 50: the dict comprehension.  The keys come from a set, so they are
    distinct and the items are in the iteration order of [nodes_set]. *)
Definition copy_nodes (net : TensorNetwork) : list (Node * option Edge) :=
  (λ node, (node, get_first_nondangling node))
    <$> filter (λ node, isinstance_CopyNode node = true) (nodes_set net).

(** Python's [sorted(l, key=...)] is a stable sort: elements come out by
    ascending key, those with equal keys in the order they had in [l]. *)
Fixpoint insert_by {A} (key : A → Z) (x : A) (l : list A) : list A :=
  match l with
  | [] => [x]
  | y :: rest =>
      if decide (key x ≤ key y) then x :: y :: rest
      else y :: insert_by key x rest
  end.

Definition sorted {A} (key : A → Z) (l : list A) : list A :=
  foldr (insert_by key) [] l.

(** The order in which Python iterates a set that the code has just built.
    The list given is the source set (here [nodes_set]) in its own
    iteration order, without the elements taken out; the new set holds the
    same elements and iterates them in an order of its own, which the code
    does not choose. *)
Class SetOrder := {
  set_iter : list Node → list Node;
  set_iter_Permutation l : set_iter l ≡ₚ l
}.

(** Lines 53 and 54: the set difference is a new set, and [sorted] reads it
    in its iteration order. *)
Definition sorted_nodes {order : SetOrder} (net : TensorNetwork)
  : list Node :=
  sorted signature
    (set_iter (filter (λ node, node ∉ (copy_nodes net).*1) (nodes_set net))).

(** Lines 56 to 70, from empty dictionaries. *)
Definition build_maps (net : TensorNetwork) : (exn + ()) * locals :=
  for_each visit_copy (copy_nodes net) empty_locals.

(** Line 73. *)
Definition input_sets {order : SetOrder} (net : TensorNetwork)
  : list (gset Edge) :=
  (λ node, list_to_set (edges node)) <$> sorted_nodes net.

(** Line 74. *)
Definition output_set (net : TensorNetwork) : gset Edge :=
  get_all_edges net ∖ get_all_nondangling net.

(** Line 75. *)
Definition size_dict (net : TensorNetwork) : gmap Edge Z :=
  set_to_map (λ edge, (edge, dimension edge)) (get_all_edges net).

Definition Path := list (Z * Z).

(** The algorithm is a Python callable: besides its arguments it may read
    and change a state of its own, and it may raise. *)
Definition Algorithm (S : Type) : Type :=
  list (gset Edge) → gset Edge → gmap Edge Z → S → (exn + Path) * S.

(** An algorithm whose answer depends on its arguments only. *)
Definition deterministic {S} (algorithm : Algorithm S) : Prop :=
  ∀ ins out sizes s s',
    (algorithm ins out sizes s).1 = (algorithm ins out sizes s').1.

(** Line 77, after the call: the returned pair, unless the algorithm
    raised. *)
Definition returned {S} (nodes : list Node) (answer : (exn + Path) * S)
  : (exn + (Path * list Node)) * S :=
  match answer with
  | (inl e, s') => (inl e, s')
  | (inr path, s') => (inr (path, nodes), s')
  end.

(** An exception of the loop leaves the function before the algorithm is
    called. *)
Definition get_path {order : SetOrder} {S} (net : TensorNetwork)
    (algorithm : Algorithm S) (s : S) : (exn + (Path * list Node)) * S :=
  match build_maps net with
  | (inl e, _) => (inl e, s)
  | (inr _, _) =>
      returned (sorted_nodes net)
        (algorithm (input_sets net) (output_set net) (size_dict net) s)
  end.

(** ** Vocabulary of the statements *)

(** The number of positions [j], [j+1], ..., [j+n-1] that are not listed in
    [indices]. *)
Definition kept_from (indices : list Z) (j n : nat) : nat :=
  length (filter (λ k : nat, Z.of_nat k ∉ indices) (seq j n)).

(** A node all of whose edges are dangling. *)
Definition no_nondangling (node : Node) : Prop :=
  Forall (λ e, is_dangling e = true) (edges node).

(** The ordinary nodes, in the iteration order of [nodes_set]. *)
Definition ordinary_nodes (net : TensorNetwork) : list Node :=
  filter (λ node, isinstance_CopyNode node = false) (nodes_set net).

(** The set whose [pop] line 65 takes: the end points of [e] other than
    [copy]. *)
Definition other_ends (copy : Node) (e : Edge) : gset py_node :=
  {[Some (node1 e); node2 e]} ∖ {[Some (node_id copy)]}.

(** What lines 65 and 66 raise at a non-dangling edge [e] of [copy], with
    [copy_to_nodes[copy]] still the dict of line 61. *)
Definition raised_at (copy : Node) (e : Edge) : exn :=
  if decide (other_ends copy e = ∅) then KeyError else AttributeError.

(** The edge-identity map as section 4.1 of the specification words it:
    every non-dangling edge of every copy node is sent to that copy node's
    representative. *)
Definition spec_edge_identity (net : TensorNetwork) : gmap Edge Edge :=
  foldl (λ m copy,
           match get_first_nondangling copy with
           | None => m
           | Some representative =>
               foldl (λ m e, if is_dangling e then m
                             else <[e := representative]> m)
                     m (edges copy)
           end)
        ∅ (filter (λ node, isinstance_CopyNode node = true) (nodes_set net)).

(** The input edge-sets as step 3 of section 4.2 of the specification words
    them: every edge present in the edge-identity map is replaced by its
    representative. *)
Definition spec_input_sets {order : SetOrder} (net : TensorNetwork)
  : list (gset Edge) :=
  (λ node, list_to_set
             ((λ e, default e (spec_edge_identity net !! e)) <$> edges node))
    <$> sorted_nodes net.

(** An algorithm that keeps a log of the requests it receives and answers
    with the empty path. *)
Definition Request : Type := list (gset Edge) * gset Edge * gmap Edge Z.

Definition recorder : Algorithm (list Request) :=
  λ ins out sizes log, (inr [], log ++ [(ins, out, sizes)]).

(** An algorithm with a counter: its answer changes from call to call. *)
Definition counting : Algorithm Z :=
  λ _ _ _ n, (inr [(n, n)], n + 1).

(** An algorithm without state that answers with the empty path. *)
Definition trivial_algorithm : Algorithm () :=
  λ _ _ _ s, (inr [], s).

(** ** Networks used as test inputs *)

Module Hyperedge.
(** One copy node [X] tied to the ordinary nodes [P], [Q], [R] by the
    edges [a], [b], [c]. *)
Definition a := mkEdge 1 2 (Some 1%positive) 2.
Definition b := mkEdge 2 3 (Some 1%positive) 2.
Definition c := mkEdge 3 4 (Some 1%positive) 2.
Definition X := mkNode 1 0 Copy [a; b; c].
Definition P := mkNode 2 1 Ordinary [a].
Definition Q := mkNode 3 2 Ordinary [b].
Definition R := mkNode 4 3 Ordinary [c].
Definition net := mkNetwork [X; P; Q; R].
End Hyperedge.

Module SingleLink.
(** A copy node [X] with one edge [a] to the ordinary node [P] and one
    dangling edge [d]. *)
Definition a := mkEdge 1 2 (Some 1%positive) 2.
Definition d := mkEdge 2 1 None 2.
Definition X := mkNode 1 0 Copy [d; a].
Definition P := mkNode 2 1 Ordinary [a].
Definition net := mkNetwork [X; P].
End SingleLink.

Module LooseCopy.
(** A copy node [X] whose two edges are dangling, next to the ordinary
    nodes [P] and [Q] joined by [a]; [P] has the dangling edge [o]. *)
Definition d1 := mkEdge 1 1 None 2.
Definition d2 := mkEdge 2 1 None 2.
Definition a := mkEdge 3 2 (Some 3%positive) 5.
Definition o := mkEdge 4 2 None 7.
Definition X := mkNode 1 0 Copy [d1; d2].
Definition P := mkNode 2 1 Ordinary [a; o].
Definition Q := mkNode 3 2 Ordinary [a].
Definition net := mkNetwork [Q; X; P].
(** The same set of nodes in another iteration order. *)
Definition net' := mkNetwork [P; Q; X].
End LooseCopy.

Module CopyOnly.
(** The empty network, and a network of one copy node with a dangling
    edge. *)
Definition empty := mkNetwork [].
Definition d := mkEdge 1 1 None 2.
Definition X := mkNode 1 0 Copy [d].
Definition net := mkNetwork [X].
End CopyOnly.

Module Triangle.
(** Three ordinary nodes [A], [B], [C] joined pairwise, with one dangling
    edge on [C]; the set iterates in the order [C], [A], [B]. *)
Definition AB := mkEdge 1 1 (Some 2%positive) 2.
Definition BC := mkEdge 2 2 (Some 3%positive) 3.
Definition AC := mkEdge 3 1 (Some 3%positive) 4.
Definition C_out := mkEdge 4 3 None 5.
Definition A := mkNode 1 1 Ordinary [AB; AC].
Definition B := mkNode 2 2 Ordinary [AB; BC].
Definition C := mkNode 3 3 Ordinary [AC; BC; C_out].
Definition net := mkNetwork [C; A; B].
End Triangle.

Module Ties.
(** Two ordinary nodes that carry the same signature, which the network
    never assigns. *)
Definition d1 := mkEdge 1 1 None 2.
Definition d2 := mkEdge 2 2 None 2.
Definition A := mkNode 1 7 Ordinary [d1].
Definition B := mkNode 2 7 Ordinary [d2].
Definition net := mkNetwork [A; B].
End Ties.

(** ** Vocabulary of the loop over the copy nodes *)

(** The keys of the dict [copy_nodes], in insertion order. *)
Definition copy_keys (net : TensorNetwork) : list Node :=
  filter (λ node, isinstance_CopyNode node = true) (nodes_set net).

(** The items that the comprehension of line 50 builds from the keys. *)
Definition items (cs : list Node) : list (Node * option Edge) :=
  (λ node, (node, get_first_nondangling node)) <$> cs.

(** The exception, if any, with which the loop of lines 60 to 70 ends: the
    first copy node that has a non-dangling edge raises at that edge. *)
Fixpoint loop_exception (cs : list Node) : option exn :=
  match cs with
  | [] => None
  | copy :: rest =>
      match get_first_nondangling copy with
      | Some e => Some (raised_at copy e)
      | None => loop_exception rest
      end
  end.

(** The dictionaries after the loop has visited the copy nodes [cs], none of
    which has a non-dangling edge: each got the dict of line 61. *)
Definition after_loose (cs : list Node) (st : locals) : locals :=
  mkLocals (edge_map st) (node_to_copies st)
           (gset_to_gmap PyDict (list_to_set (node_id <$> cs))
              ∪ copy_to_nodes st).

(** Ascending order of keys. *)
Definition key_le {A} (key : A → Z) : relation A := λ x y, key x ≤ key y.

(** No two ordinary nodes of the network carry the same signature. *)
Definition unique_signatures (net : TensorNetwork) : Prop :=
  NoDup (signature <$> ordinary_nodes net).

(** Both end points of [e] are the node [copy]: a trace edge of [copy]. *)
Definition trace_edge (copy : Node) (e : Edge) : Prop :=
  node1 e = node_id copy ∧ node2 e = Some (node_id copy).

#[global] Instance trace_edge_dec copy e : Decision (trace_edge copy e).
Proof. unfold trace_edge. apply _. Defined.

Module SelfLoop.
(** A copy node [X] whose first two axes are joined by the trace edge [t],
    with a further edge [a] to the ordinary node [P]. *)
Definition t := mkEdge 1 1 (Some 1%positive) 2.
Definition a := mkEdge 2 2 (Some 1%positive) 2.
Definition X := mkNode 1 0 Copy [t; t; a].
Definition P := mkNode 2 1 Ordinary [a].
Definition net := mkNetwork [X; P].
End SelfLoop.

(** Two set orders for concrete runs: the new set iterates like its source,
    or the other way round. *)
Definition source_order : SetOrder :=
  {| set_iter l := l; set_iter_Permutation l := Permutation_refl l |}.

Definition reversed_order : SetOrder :=
  {| set_iter l := reverse l; set_iter_Permutation l := reverse_Permutation l |}.

Module Mixed.
(** An ordinary node [P] and two copy nodes: [X1] with a dangling edge
    only, and [X2] joined to [P] by [a]. *)
Definition d := mkEdge 1 2 None 2.
Definition a := mkEdge 2 1 (Some 3%positive) 2.
Definition P := mkNode 1 1 Ordinary [a].
Definition X1 := mkNode 2 2 Copy [d].
Definition X2 := mkNode 3 3 Copy [a].
Definition net := mkNetwork [P; X1; X2].
End Mixed.

(** * Properties *)

Section properties.
Context {order : SetOrder}.

(** ** [multi_remove] *)

Section multi_remove.
Context {A : Type}.
Implicit Types (elems : list A) (indices : list Z).

Lemma multi_remove_from_sublist elems indices j :
  multi_remove_from j elems indices `sublist_of` elems.
Proof.
  revert j. induction elems as [|x rest IH]; intros j; simpl.
  - constructor.
  - case_bool_decide.
    + by apply sublist_skip.
    + by apply sublist_cons.
Qed.

Lemma multi_remove_from_length elems indices j :
  length (multi_remove_from j elems indices)
  = kept_from indices j (length elems).
Proof.
  revert j. induction elems as [|x rest IH]; intros j; [done|].
  unfold kept_from in *. simpl. rewrite filter_cons.
  case_bool_decide; case_decide; try done; simpl; by rewrite IH.
Qed.

Lemma multi_remove_from_lookup elems indices j i :
  Z.of_nat (j + i) ∉ indices →
  multi_remove_from j elems indices !! kept_from indices j i = elems !! i.
Proof.
  revert j i. induction elems as [|x rest IH]; intros j i Hi.
  - by rewrite !lookup_nil.
  - destruct i as [|i]; simpl.
    + rewrite Nat.add_0_r in Hi. by rewrite bool_decide_eq_true_2.
    + unfold kept_from in *. simpl. rewrite filter_cons.
      replace (j + S i)%nat with (S j + i)%nat in Hi by lia.
      case_bool_decide; case_decide; try done; simpl; by apply IH.
Qed.

Lemma multi_remove_from_lookup_inv elems indices j k x :
  multi_remove_from j elems indices !! k = Some x →
  ∃ i, elems !! i = Some x ∧ (Z.of_nat (j + i) ∉ indices)
       ∧ k = kept_from indices j i.
Proof.
  revert j k. induction elems as [|y rest IH]; intros j k Hk; [done|].
  simpl in Hk. case_bool_decide as Hj.
  - destruct k as [|k]; simplify_eq/=.
    + exists 0%nat. rewrite Nat.add_0_r. by split_and!.
    + destruct (IH _ _ Hk) as (i & Hi & Hnot & ->).
      exists (S i). split_and!; [done|by rewrite Nat.add_succ_r|].
      unfold kept_from. simpl. rewrite filter_cons.
      by case_decide.
  - destruct (IH _ _ Hk) as (i & Hi & Hnot & ->).
    exists (S i). split_and!; [done|by rewrite Nat.add_succ_r|].
    unfold kept_from. simpl. rewrite filter_cons.
    by case_decide.
Qed.

Lemma multi_remove_from_ext elems indices indices' j :
  (∀ i : nat, (i < length elems)%nat →
     Z.of_nat (j + i) ∈ indices ↔ Z.of_nat (j + i) ∈ indices') →
  multi_remove_from j elems indices' = multi_remove_from j elems indices.
Proof.
  revert j. induction elems as [|x rest IH]; intros j Hext; [done|].
  simpl. rewrite (IH (S j)).
  - pose proof (Hext 0%nat ltac:(simpl; lia)) as H0.
    rewrite Nat.add_0_r in H0.
    repeat case_bool_decide; try done; tauto.
  - intros i Hi. replace (S j + i)%nat with (j + S i)%nat by lia.
    apply Hext. simpl. lia.
Qed.

(** C10: [multi_remove elems indices] is the list of exactly those elements
    of [elems] whose position is not in [indices], in their relative order:
    it is a sublist of [elems], the element at an unlisted position [j]
    sits at the rank of [j] among the unlisted positions, every element of
    the result comes from such a position, and the length is the number
    of unlisted positions.  Only the in-range positions that occur in
    [indices] matter, so out-of-range or repeated entries change nothing.
    The call allocates a new list and leaves the argument list as it was. *)
Theorem multi_remove_keeps_unlisted elems indices :
  multi_remove elems indices `sublist_of` elems
  ∧ length (multi_remove elems indices)
    = kept_from indices 0 (length elems)
  ∧ (∀ j : nat, Z.of_nat j ∉ indices →
       multi_remove elems indices !! kept_from indices 0 j = elems !! j)
  ∧ (∀ k x, multi_remove elems indices !! k = Some x →
       ∃ j : nat, elems !! j = Some x ∧ (Z.of_nat j ∉ indices)
                  ∧ k = kept_from indices 0 j)
  ∧ (∀ indices',
       (∀ j : nat, (j < length elems)%nat →
          Z.of_nat j ∈ indices ↔ Z.of_nat j ∈ indices') →
       multi_remove elems indices' = multi_remove elems indices)
  ∧ (∀ heap l, heap !! l = Some elems →
       ∃ r, multi_remove_call heap l indices
            = Some (<[r := multi_remove elems indices]> heap, r)
            ∧ heap !! r = None
            ∧ (<[r := multi_remove elems indices]> heap) !! l = Some elems).
Proof.
  unfold multi_remove. split_and!.
  - apply multi_remove_from_sublist.
  - apply multi_remove_from_length.
  - intros j Hj. by apply multi_remove_from_lookup.
  - intros k x Hk. by apply multi_remove_from_lookup_inv in Hk.
  - intros indices' Hext. by apply multi_remove_from_ext.
  - intros heap l Hl. exists (fresh (dom heap)).
    assert (heap !! fresh (dom heap) = None) as Hfresh
      by apply not_elem_of_dom, is_fresh.
    unfold multi_remove_call. rewrite Hl. split_and!; [done..|].
    rewrite lookup_insert_ne; [done|]. intros <-. congruence.
Qed.
End multi_remove.

(** A run of [multi_remove]: positions 1 and 3 go, the repeated 1, the
    negative -1 and the out-of-range 9 have no effect. *)
Example multi_remove_run :
  multi_remove [10; 11; 12; 13; 14] [1; 3; 1; -1; 9] = [10; 12; 14].
Proof. reflexivity. Qed.

(** ** [get_first_nondangling] *)

Lemma first_nondangling_split es :
  match first_nondangling es with
  | Some e => ∃ pre post, es = pre ++ e :: post
                ∧ Forall (λ e', is_dangling e' = true) pre
                ∧ is_dangling e = false
  | None => Forall (λ e, is_dangling e = true) es
  end.
Proof.
  induction es as [|e es IH]; simpl; [constructor|].
  destruct (is_dangling e) eqn:He; simpl.
  - destruct (first_nondangling es) as [r|].
    + destruct IH as (pre & post & -> & Hpre & Hr).
      exists (e :: pre), post. split_and!; [done|by constructor|done].
    + by constructor.
  - exists [], es. split_and!; [done|constructor|done].
Qed.

Lemma get_first_nondangling_None node :
  get_first_nondangling node = None ↔ no_nondangling node.
Proof.
  unfold get_first_nondangling, no_nondangling.
  pose proof (first_nondangling_split (edges node)) as H.
  destruct (first_nondangling (edges node)) as [e|]; split; try done.
  destruct H as (pre & post & -> & _ & He).
  rewrite Forall_app, Forall_cons. intros (_ & He' & _). congruence.
Qed.

(** C7: [get_first_nondangling] returns the first edge, in the order of
    [node.edges], that is not dangling (every edge before it is dangling),
    and it returns [None] exactly when the node has no non-dangling edge. *)
Theorem get_first_nondangling_first (node : Node) :
  match get_first_nondangling node with
  | Some edge => ∃ pre post, edges node = pre ++ edge :: post
                   ∧ Forall (λ e, is_dangling e = true) pre
                   ∧ is_dangling edge = false
  | None => no_nondangling node
  end
  ∧ (get_first_nondangling node = None ↔ no_nondangling node).
Proof.
  split; [apply first_nondangling_split|apply get_first_nondangling_None].
Qed.

(** ** The loop over the copy nodes *)

Ltac run :=
  repeat (progress (unfold mbind, M_bind, mret, M_ret, write, read, raise;
                    simpl)).

Lemma for_each_cons {A} (body : A → M ()) x l st :
  for_each body (x :: l) st
  = match body x st with
    | (inl e, st') => (inl e, st')
    | (inr _, st') => for_each body l st'
    end.
Proof. simpl. unfold mbind, M_bind. by destruct (body x st) as [[?|[]] ?]. Qed.

Lemma for_each_app {A} (body : A → M ()) l1 l2 st :
  for_each body (l1 ++ l2) st
  = match for_each body l1 st with
    | (inl e, st') => (inl e, st')
    | (inr _, st') => for_each body l2 st'
    end.
Proof.
  revert st. induction l1 as [|x l1 IH]; intros st; [done|].
  rewrite <-app_comm_cons, !for_each_cons.
  destruct (body x st) as [[e|[]] st']; [done|]. apply IH.
Qed.

(** Dangling edges are skipped by the test of line 63. *)
Lemma for_each_visit_edge_dangling copy edge es st :
  Forall (λ e, is_dangling e = true) es →
  for_each (visit_edge copy edge) es st = (inr (), st).
Proof.
  induction 1 as [|e es He _ IH]; [done|].
  rewrite for_each_cons. unfold visit_edge at 1. rewrite He. by run.
Qed.

(** At a non-dangling edge, line 64 stores the edge and then line 65 or
    line 66 raises: [copy_to_nodes[copy]] is the dict of line 61, which has
    no [add]. *)
Lemma visit_edge_nondangling copy edge e st :
  is_dangling e = false →
  copy_to_nodes st !! node_id copy = Some PyDict →
  visit_edge copy edge e st
  = (inl (raised_at copy e),
     mkLocals (<[e := edge]> (edge_map st)) (node_to_copies st)
              (copy_to_nodes st)).
Proof.
  intros He Hc. unfold visit_edge, raised_at. rewrite He. run.
  fold (other_ends copy e). unfold set_pop.
  destruct (elements (other_ends copy e)) as [|x l] eqn:Hel.
  - apply elements_empty_inv, leibniz_equiv in Hel.
    by rewrite decide_True.
  - rewrite decide_False.
    2:{ intros Hempty. by rewrite Hempty, elements_empty in Hel. }
    run. rewrite Hc. by run.
Qed.

Lemma visit_copy_loose copy edge st :
  no_nondangling copy →
  visit_copy (copy, edge) st
  = (inr (), mkLocals (edge_map st) (node_to_copies st)
                      (<[node_id copy := PyDict]> (copy_to_nodes st))).
Proof.
  intros Hc. unfold visit_copy. run.
  by rewrite for_each_visit_edge_dangling.
Qed.

Lemma visit_copy_tied copy edge st pre e post :
  edges copy = pre ++ e :: post →
  Forall (λ e', is_dangling e' = true) pre →
  is_dangling e = false →
  visit_copy (copy, edge) st
  = (inl (raised_at copy e),
     mkLocals (<[e := edge]> (edge_map st)) (node_to_copies st)
              (<[node_id copy := PyDict]> (copy_to_nodes st))).
Proof.
  intros Hes Hpre He. unfold visit_copy. run.
  rewrite Hes, for_each_app, for_each_visit_edge_dangling by done.
  rewrite for_each_cons, visit_edge_nondangling; [done..|].
  simpl. apply lookup_insert_eq.
Qed.

Lemma visit_copy_representative copy st :
  match get_first_nondangling copy with
  | Some e =>
      visit_copy (copy, Some e) st
      = (inl (raised_at copy e),
         mkLocals (<[e := Some e]> (edge_map st)) (node_to_copies st)
                  (<[node_id copy := PyDict]> (copy_to_nodes st)))
  | None =>
      visit_copy (copy, None) st
      = (inr (), mkLocals (edge_map st) (node_to_copies st)
                          (<[node_id copy := PyDict]> (copy_to_nodes st)))
  end.
Proof.
  destruct (get_first_nondangling copy) as [e|] eqn:Hrep.
  - unfold get_first_nondangling in Hrep.
    pose proof (first_nondangling_split (edges copy)) as H.
    rewrite Hrep in H. destruct H as (pre & post & Hes & Hpre & He).
    by eapply visit_copy_tied.
  - by apply visit_copy_loose, get_first_nondangling_None.
Qed.

Lemma items_cons copy cs :
  items (copy :: cs) = (copy, get_first_nondangling copy) :: items cs.
Proof. done. Qed.

Lemma gset_to_gmap_insert_union (X : gset positive) i
    (m : gmap positive container) :
  gset_to_gmap PyDict X ∪ <[i := PyDict]> m
  = gset_to_gmap PyDict ({[i]} ∪ X) ∪ m.
Proof.
  apply map_eq. intros j.
  rewrite !lookup_union, lookup_insert, !lookup_gset_to_gmap.
  rewrite !option_guard_decide.
  destruct (decide (i = j)) as [->|Hne], (decide (j ∈ X)) as [Hj|Hj].
  - rewrite decide_True by (apply elem_of_union; auto).
    by destruct (m !! j).
  - rewrite decide_True by (apply elem_of_union_l, elem_of_singleton; auto).
    by destruct (m !! j).
  - by rewrite decide_True by (apply elem_of_union; auto).
  - rewrite decide_False; [done|].
    rewrite elem_of_union, elem_of_singleton. intros [?|?]; auto.
Qed.

Lemma for_each_visit_copy_loose cs st :
  Forall no_nondangling cs →
  for_each visit_copy (items cs) st = (inr (), after_loose cs st).
Proof.
  intros Hcs. revert st.
  induction Hcs as [|copy cs Hc _ IH]; intros st.
  - unfold after_loose. simpl. rewrite gset_to_gmap_empty, (left_id_L ∅ (∪)).
    by destruct st.
  - rewrite items_cons, for_each_cons.
    pose proof (visit_copy_representative copy st) as Hv.
    apply get_first_nondangling_None in Hc. rewrite Hc in Hv |- *.
    rewrite Hv, IH. unfold after_loose. simpl. do 2 f_equal.
    apply gset_to_gmap_insert_union.
Qed.

Lemma for_each_visit_copy_tied cs copy rest e st :
  Forall no_nondangling cs →
  get_first_nondangling copy = Some e →
  for_each visit_copy (items (cs ++ copy :: rest)) st
  = (inl (raised_at copy e),
     mkLocals (<[e := Some e]> (edge_map st)) (node_to_copies st)
              (<[node_id copy := PyDict]> (copy_to_nodes (after_loose cs st)))).
Proof.
  intros Hcs He. unfold items. rewrite fmap_app, for_each_app.
  fold (items cs). rewrite for_each_visit_copy_loose by done.
  rewrite fmap_cons, for_each_cons.
  pose proof (visit_copy_representative copy (after_loose cs st)) as Hv.
  rewrite He in Hv |- *. by rewrite Hv.
Qed.

Lemma loop_exception_None cs :
  loop_exception cs = None ↔ Forall no_nondangling cs.
Proof.
  induction cs as [|copy cs IH]; simpl; [by split; [constructor|]|].
  rewrite Forall_cons, <-IH, <-get_first_nondangling_None.
  destruct (get_first_nondangling copy);
    (split; [try done; by split|by intros [? ?]]).
Qed.

Lemma loop_exception_Some cs ex :
  loop_exception cs = Some ex ↔
  ∃ pre copy rest e, cs = pre ++ copy :: rest ∧ Forall no_nondangling pre
    ∧ get_first_nondangling copy = Some e ∧ ex = raised_at copy e.
Proof.
  induction cs as [|copy cs IH]; simpl.
  - split; [done|]. intros (pre & ? & ? & ? & Hnil & _). by destruct pre.
  - destruct (get_first_nondangling copy) as [e|] eqn:Hrep.
    + split.
      * intros [= <-]. exists [], copy, cs, e. by split_and!.
      * intros (pre & copy' & rest & e' & Hcs & Hpre & Hrep' & ->).
        destruct pre as [|x pre]; simplify_eq/=; [done|].
        apply Forall_cons in Hpre as [Hx _].
        apply get_first_nondangling_None in Hx. congruence.
    + rewrite IH. split.
      * intros (pre & copy' & rest & e' & -> & Hpre & Hrep' & ->).
        exists (copy :: pre), copy', rest, e'. split_and!; try done.
        constructor; [by apply get_first_nondangling_None|done].
      * intros (pre & copy' & rest & e' & Hcs & Hpre & Hrep' & ->).
        destruct pre as [|x pre]; simplify_eq/=.
        apply Forall_cons in Hpre as [_ Hpre]. by exists pre, copy', rest, e'.
Qed.

Lemma raised_at_cases copy e :
  raised_at copy e = AttributeError ∨ raised_at copy e = KeyError.
Proof. unfold raised_at. case_decide; auto. Qed.

(** Whether the loop raises, and what, depends on the copy nodes only. *)
Lemma for_each_visit_copy_outcome cs st :
  (for_each visit_copy (items cs) st).1
  = match loop_exception cs with
    | Some ex => inl ex
    | None => inr ()
    end.
Proof.
  destruct (loop_exception cs) as [ex|] eqn:Hloop.
  - apply loop_exception_Some in Hloop
      as (pre & copy & rest & e & -> & Hpre & Hrep & ->).
    by erewrite for_each_visit_copy_tied.
  - apply loop_exception_None in Hloop.
    by rewrite for_each_visit_copy_loose.
Qed.

(** Copy nodes without a non-dangling edge do not change the outcome. *)
Lemma loop_exception_skip pre copy rest :
  no_nondangling copy →
  loop_exception (pre ++ copy :: rest) = loop_exception (pre ++ rest).
Proof.
  intros Hc. apply get_first_nondangling_None in Hc.
  induction pre as [|x pre IH]; simpl; [by rewrite Hc|].
  by destruct (get_first_nondangling x).
Qed.

(** ** [get_path] as a whole *)

Lemma copy_nodes_items net : copy_nodes net = items (copy_keys net).
Proof. done. Qed.

Lemma build_maps_outcome net :
  (build_maps net).1
  = match loop_exception (copy_keys net) with
    | Some ex => inl ex
    | None => inr ()
    end.
Proof.
  unfold build_maps. rewrite copy_nodes_items.
  apply for_each_visit_copy_outcome.
Qed.

Lemma build_maps_loose net :
  Forall no_nondangling (copy_keys net) →
  build_maps net = (inr (), after_loose (copy_keys net) empty_locals).
Proof.
  intros Hcs. unfold build_maps. rewrite copy_nodes_items.
  by apply for_each_visit_copy_loose.
Qed.

Lemma get_path_unfold {S} net (algorithm : Algorithm S) s :
  get_path net algorithm s
  = match loop_exception (copy_keys net) with
    | Some ex => (inl ex, s)
    | None =>
        returned (sorted_nodes net)
          (algorithm (input_sets net) (output_set net) (size_dict net) s)
    end.
Proof.
  unfold get_path. pose proof (build_maps_outcome net) as Hout.
  destruct (build_maps net) as [[ex|[]] st];
    destruct (loop_exception (copy_keys net)); by simplify_eq/=.
Qed.

(** Any copy node with a non-dangling edge makes [get_path] raise, whatever
    the algorithm. *)
Lemma get_path_tied_raises {S} net (algorithm : Algorithm S) s copy :
  copy ∈ nodes_set net → isinstance_CopyNode copy = true →
  ¬ no_nondangling copy →
  get_path net algorithm s = (inl AttributeError, s)
  ∨ get_path net algorithm s = (inl KeyError, s).
Proof.
  intros Hin Hcopy Htied. rewrite get_path_unfold.
  destruct (loop_exception (copy_keys net)) as [ex|] eqn:Hloop.
  - apply loop_exception_Some in Hloop as (? & c & ? & e & _ & _ & _ & ->).
    destruct (raised_at_cases c e) as [-> | ->]; auto.
  - apply loop_exception_None in Hloop.
    rewrite Forall_forall in Hloop. destruct Htied. apply Hloop.
    unfold copy_keys. by apply list_elem_of_filter.
Qed.

(** ** Sorting by key *)

Section sorted.
Context {A : Type} (key : A → Z).
Implicit Types (x : A) (l : list A).

Lemma insert_by_Permutation x l : insert_by key x l ≡ₚ x :: l.
Proof.
  induction l as [|y l IH]; simpl; [done|].
  case_decide; [done|]. rewrite IH. apply Permutation_swap.
Qed.

Lemma sorted_Permutation l : sorted key l ≡ₚ l.
Proof.
  induction l as [|x l IH]; simpl; [done|].
  fold (sorted key l). by rewrite insert_by_Permutation, IH.
Qed.

Lemma insert_by_StronglySorted x l :
  StronglySorted (key_le key) l →
  StronglySorted (key_le key) (insert_by key x l).
Proof.
  induction 1 as [|y l Hl IH Hy]; simpl.
  - repeat constructor.
  - case_decide as Hxy.
    + constructor; [by constructor|].
      constructor; [done|].
      eapply Forall_impl; [exact Hy|]. unfold key_le. simpl. lia.
    + constructor; [done|].
      rewrite insert_by_Permutation. constructor; [|done].
      unfold key_le. lia.
Qed.

Lemma sorted_StronglySorted l : StronglySorted (key_le key) (sorted key l).
Proof.
  induction l as [|x l IH]; simpl; [constructor|].
  by apply insert_by_StronglySorted.
Qed.

(** With distinct keys the sorted list depends on the elements only, not
    on the order in which they are given. *)
Lemma sorted_Permutation_eq l1 l2 :
  (∀ x y, x ∈ l1 → y ∈ l1 → key x = key y → x = y) →
  l1 ≡ₚ l2 → sorted key l1 = sorted key l2.
Proof.
  intros Hinj Hperm.
  apply (StronglySorted_unique_strong (key_le key));
    [|apply sorted_StronglySorted..|by rewrite !sorted_Permutation].
  intros x y Hx Hy Hxy Hyx. unfold key_le in *.
  rewrite sorted_Permutation in Hx. rewrite sorted_Permutation, <-Hperm in Hy.
  apply Hinj; [done..|lia].
Qed.

Lemma insert_by_filter k x l :
  StronglySorted (key_le key) l →
  filter (λ y, key y = k) (insert_by key x l)
  = filter (λ y, key y = k) (x :: l).
Proof.
  induction 1 as [|y l Hl IH Hy]; simpl; [done|].
  case_decide as Hxy; [done|].
  rewrite (filter_cons _ y), IH, !filter_cons.
  repeat case_decide; try done; lia.
Qed.

(** Stability: the elements of one key keep the order they had. *)
Lemma sorted_stable k l :
  filter (λ y, key y = k) (sorted key l) = filter (λ y, key y = k) l.
Proof.
  induction l as [|x l IH]; simpl; [done|].
  rewrite insert_by_filter by apply sorted_StronglySorted.
  fold (sorted key l). by rewrite !filter_cons, IH.
Qed.
End sorted.

Lemma filter_ext_elem_of {A} (P Q : A → Prop)
    `{!∀ x, Decision (P x), !∀ x, Decision (Q x)} (l : list A) :
  (∀ x, x ∈ l → P x ↔ Q x) → filter P l = filter Q l.
Proof.
  induction l as [|x l IH]; intros Hext; [done|].
  rewrite !filter_cons, IH.
  - pose proof (Hext x ltac:(left)) as Hx.
    repeat case_decide; try done; tauto.
  - intros y Hy. apply Hext. by right.
Qed.

(** Removing the keys of [copy_nodes] from [nodes_set] leaves the ordinary
    nodes. *)
Lemma sorted_nodes_ordinary (o : SetOrder) net :
  @sorted_nodes o net = sorted signature (@set_iter o (ordinary_nodes net)).
Proof.
  unfold sorted_nodes, ordinary_nodes. do 2 f_equal.
  apply filter_ext_elem_of. intros node Hnode.
  rewrite copy_nodes_items. unfold items.
  rewrite <-list_fmap_compose, list_fmap_id.
  unfold copy_keys. rewrite list_elem_of_filter.
  destruct (isinstance_CopyNode node); split; try done.
  - intros Hnot. destruct Hnot. by split.
  - by intros _ [? _].
Qed.

Lemma sorted_nodes_Permutation (o : SetOrder) net :
  @sorted_nodes o net ≡ₚ ordinary_nodes net.
Proof.
  by rewrite sorted_nodes_ordinary, sorted_Permutation, set_iter_Permutation.
Qed.

Lemma ordinary_nodes_Permutation net net' :
  nodes_set net' ≡ₚ nodes_set net → ordinary_nodes net' ≡ₚ ordinary_nodes net.
Proof. intros Hperm. unfold ordinary_nodes. by rewrite Hperm. Qed.

Lemma get_path_returned_nodes {S} net (algorithm : Algorithm S) s path nodes s' :
  get_path net algorithm s = (inr (path, nodes), s') →
  nodes = sorted_nodes net.
Proof.
  rewrite get_path_unfold. destruct (loop_exception _); [done|].
  unfold returned. destruct (algorithm _ _ _ _) as [[?|?] ?]; congruence.
Qed.

Lemma NoDup_fmap_key_inj {A} (key : A → Z) (l : list A) :
  NoDup (key <$> l) →
  ∀ x y, x ∈ l → y ∈ l → key x = key y → x = y.
Proof.
  induction l as [|a l IH]; intros Hnd x y Hx Hy Hkey.
  - by apply elem_of_nil in Hx.
  - rewrite fmap_cons in Hnd. apply NoDup_cons in Hnd as [Ha Hnd].
    apply elem_of_cons in Hx as [->|Hx]; apply elem_of_cons in Hy as [->|Hy].
    + done.
    + destruct Ha. rewrite Hkey. by apply list_elem_of_fmap_2.
    + destruct Ha. rewrite <-Hkey. by apply list_elem_of_fmap_2.
    + by apply IH.
Qed.

(** With distinct signatures the iteration order of the new set does not
    show in the sorted list. *)
Lemma sorted_nodes_distinct (o : SetOrder) net :
  unique_signatures net →
  @sorted_nodes o net = sorted signature (ordinary_nodes net).
Proof.
  intros Huniq. rewrite sorted_nodes_ordinary. symmetry.
  apply sorted_Permutation_eq.
  - by apply NoDup_fmap_key_inj.
  - symmetry. apply set_iter_Permutation.
Qed.

(** C6: the node list of [get_path] consists of the ordinary nodes, in
    ascending order of signature (nodes of equal signature in the iteration
    order of the set that line 53 builds).  A call whose loop does not raise
    and whose algorithm answers with a path returns that path together with
    this list, and no call returns another list.  With distinct signatures
    the list is the same for every iteration order of [nodes_set] and of
    the set of line 53, so it depends on the signatures only. *)
Theorem sorted_nodes_by_signature (net : TensorNetwork) :
  sorted_nodes net ≡ₚ ordinary_nodes net
  ∧ StronglySorted (key_le signature) (sorted_nodes net)
  ∧ (∀ k, filter (λ node, signature node = k) (sorted_nodes net)
          = filter (λ node, signature node = k)
              (set_iter (ordinary_nodes net)))
  ∧ (∀ S (algorithm : Algorithm S) s path s',
       Forall no_nondangling (copy_keys net) →
       algorithm (input_sets net) (output_set net) (size_dict net) s
       = (inr path, s') →
       get_path net algorithm s = (inr (path, sorted_nodes net), s'))
  ∧ (∀ S (algorithm : Algorithm S) s path nodes s',
       get_path net algorithm s = (inr (path, nodes), s') →
       nodes = sorted_nodes net)
  ∧ (∀ (order' : SetOrder) net', unique_signatures net →
       nodes_set net' ≡ₚ nodes_set net →
       @sorted_nodes order' net' = @sorted_nodes order net).
Proof.
  split_and!.
  - apply sorted_nodes_Permutation.
  - rewrite sorted_nodes_ordinary. apply sorted_StronglySorted.
  - intros k. rewrite sorted_nodes_ordinary. apply sorted_stable.
  - intros S algorithm s path s' Hloose Hanswer.
    rewrite get_path_unfold. apply loop_exception_None in Hloose as ->.
    by rewrite Hanswer.
  - intros S algorithm s path nodes s' Hget.
    by eapply get_path_returned_nodes.
  - intros order' net' Huniq Hperm.
    rewrite (sorted_nodes_distinct order net Huniq).
    rewrite (sorted_nodes_ordinary order' net'). symmetry.
    apply sorted_Permutation_eq.
    + by apply NoDup_fmap_key_inj.
    + rewrite set_iter_Permutation. symmetry.
      by apply ordinary_nodes_Permutation.
Qed.

(** ** The output edge-set *)

Lemma elem_of_get_all_edges net e :
  e ∈ get_all_edges net ↔ ∃ node, node ∈ nodes_set net ∧ e ∈ edges node.
Proof.
  unfold get_all_edges. rewrite elem_of_union_list. split.
  - intros (X & HX & He). apply list_elem_of_fmap in HX as (node & -> & Hn).
    exists node. split; [done|]. by apply elem_of_list_to_set in He.
  - intros (node & Hn & He). exists (list_to_set (edges node)). split.
    + apply list_elem_of_fmap. by exists node.
    + by apply elem_of_list_to_set.
Qed.

Lemma elem_of_output_set net e :
  e ∈ output_set net ↔ e ∈ get_all_edges net ∧ is_dangling e = true.
Proof.
  unfold output_set, get_all_nondangling.
  rewrite elem_of_difference, elem_of_filter.
  destruct (is_dangling e); split; try done.
  - by intros [He _].
  - intros [He _]. split; [done|]. by intros [? _].
  - intros [He Hnot]. destruct Hnot. by split.
  - by intros [_ ?].
Qed.

(** C5: the output edge-set of [get_path] is exactly the set of the dangling
    edges of the network: an edge is in it if and only if it is an edge of
    some node and is dangling, so no non-dangling edge is in it; and it is
    the set that [get_path] hands to the algorithm, as the log of the
    recording algorithm shows. *)
Theorem output_set_dangling_edges (net : TensorNetwork) :
  (∀ e, e ∈ output_set net ↔
        (∃ node, node ∈ nodes_set net ∧ e ∈ edges node)
        ∧ is_dangling e = true)
  ∧ (∀ e, e ∈ get_all_nondangling net → e ∉ output_set net)
  ∧ (∀ log, (get_path net recorder log).2
            = match loop_exception (copy_keys net) with
              | Some _ => log
              | None =>
                  log ++ [(input_sets net, output_set net, size_dict net)]
              end).
Proof.
  split_and!.
  - intros e. by rewrite elem_of_output_set, elem_of_get_all_edges.
  - intros e He. unfold output_set. rewrite elem_of_difference. by intros [_ ?].
  - intros log. rewrite get_path_unfold.
    by destruct (loop_exception (copy_keys net)).
Qed.

(** ** Copy nodes without a non-dangling edge *)

Lemma copy_keys_app pre rest :
  copy_keys (mkNetwork (pre ++ rest))
  = copy_keys (mkNetwork pre) ++ copy_keys (mkNetwork rest).
Proof. unfold copy_keys. simpl. apply filter_app. Qed.

Lemma copy_keys_cons_copy copy rest :
  isinstance_CopyNode copy = true →
  copy_keys (mkNetwork (copy :: rest)) = copy :: copy_keys (mkNetwork rest).
Proof. intros Hc. unfold copy_keys. simpl. by rewrite filter_cons_True. Qed.

(** A copy node all of whose edges are dangling has no representative; its
    turn in the loop never raises, puts no key into the edge-identity map
    nor into [node_to_copies], and leaves the empty dict of line 61 under
    [copy_to_nodes]; taking it out of the network does not change whether
    the loop raises; and in a network whose copy nodes are all of this kind
    the loop ends with an empty edge-identity map and the call goes on to
    the algorithm and returns its answer. *)
Theorem loose_copy_node_harmless {S} (net : TensorNetwork)
    (algorithm : Algorithm S) (s : S) (copy : Node) :
  copy ∈ nodes_set net →
  isinstance_CopyNode copy = true →
  no_nondangling copy →
  get_first_nondangling copy = None
  ∧ (∀ st, visit_copy (copy, get_first_nondangling copy) st
           = (inr (), mkLocals (edge_map st) (node_to_copies st)
                        (<[node_id copy := PyDict]> (copy_to_nodes st))))
  ∧ (∀ pre rest, nodes_set net = pre ++ copy :: rest →
       (build_maps net).1 = (build_maps (mkNetwork (pre ++ rest))).1)
  ∧ (Forall no_nondangling (copy_keys net) →
       build_maps net
       = (inr (), mkLocals ∅ ∅
                    (gset_to_gmap PyDict
                       (list_to_set (node_id <$> copy_keys net))))
       ∧ get_path net algorithm s
         = returned (sorted_nodes net)
             (algorithm (input_sets net) (output_set net) (size_dict net) s)).
Proof.
  intros Hin Hcopy Hloose. split_and!.
  - by apply get_first_nondangling_None.
  - intros st. by apply visit_copy_loose.
  - intros pre rest Hnet. rewrite !build_maps_outcome.
    destruct net as [nodes]. simpl in Hnet. subst nodes.
    rewrite (copy_keys_app pre (copy :: rest)), copy_keys_cons_copy by done.
    by rewrite loop_exception_skip, copy_keys_app.
  - intros Hall. split.
    + rewrite build_maps_loose by done. unfold after_loose, empty_locals.
      simpl. by rewrite (right_id_L ∅ (∪)).
    + rewrite get_path_unfold.
      by apply loop_exception_None in Hall as ->.
Qed.

(** ** Repeated calls *)

(** C9: with an algorithm whose answer depends on its arguments only, a
    second call of [get_path] on the same network, made in the state that
    the first call left behind, has the outcome of the first: the same pair
    of path and node list, or the same exception. *)
Theorem get_path_repeatable {S} (net : TensorNetwork)
    (algorithm : Algorithm S) (s : S) :
  deterministic algorithm →
  (get_path net algorithm (get_path net algorithm s).2).1
  = (get_path net algorithm s).1.
Proof.
  intros Hdet. rewrite !get_path_unfold.
  destruct (loop_exception (copy_keys net)); [done|].
  set (s1 := (returned _ (algorithm _ _ _ s)).2).
  specialize (Hdet (input_sets net) (output_set net) (size_dict net) s1 s).
  unfold returned.
  destruct (algorithm _ _ _ s1) as [[?|?] ?],
           (algorithm _ _ _ s) as [[?|?] ?]; simpl in *; congruence.
Qed.

(** ** Networks without ordinary nodes *)

(** C3, amended: on a network with no ordinary node, whose copy nodes have
    no non-dangling edge, [get_path] raises no error of its own: it calls
    the algorithm with an empty list of input sets and returns its path
    with an empty node list (or lets the algorithm's exception through). *)
Theorem get_path_no_ordinary_nodes {S} (net : TensorNetwork)
    (algorithm : Algorithm S) (s : S) :
  ordinary_nodes net = [] →
  Forall no_nondangling (copy_keys net) →
  input_sets net = []
  ∧ get_path net algorithm s
    = returned [] (algorithm [] (output_set net) (size_dict net) s).
Proof.
  intros Hord Hloose.
  assert (sorted_nodes net = []) as Hsorted
    by (apply Permutation_nil_r; by rewrite <-Hord, sorted_nodes_Permutation).
  assert (input_sets net = []) as Hins
    by (unfold input_sets; by rewrite Hsorted).
  split; [done|]. rewrite get_path_unfold, Hins, Hsorted.
  by apply loop_exception_None in Hloose as ->.
Qed.

(** ** Copy nodes with a non-dangling edge *)

(** C2: on [SingleLink.net], whose copy node has exactly one non-dangling
    edge [a], the loop stores [a] as its own representative and then raises
    [AttributeError] at line 66, so [get_path] raises whatever the
    algorithm. *)
Theorem get_path_single_link_raises :
  get_first_nondangling SingleLink.X = Some SingleLink.a
  ∧ build_maps SingleLink.net
    = (inl AttributeError,
       mkLocals {[SingleLink.a := Some SingleLink.a]} ∅
                {[1%positive := PyDict]})
  ∧ (∀ S (algorithm : Algorithm S) s,
       get_path SingleLink.net algorithm s = (inl AttributeError, s)).
Proof.
  split_and!; [by vm_compute..|].
  intros S algorithm s. by rewrite get_path_unfold.
Qed.

(** C8: [Mixed.net] contains the copy node [X1], which has zero non-dangling
    edges.  The pass of the loop over [X1] goes through and leaves nothing
    but the empty dict of line 61, yet the call does not complete: the pass
    over the other copy node [X2] stores its edge [a] and raises
    [AttributeError] at line 66, so [get_path] raises whatever the
    algorithm. *)
Theorem get_path_mixed_copies_raises :
  Mixed.X1 ∈ nodes_set Mixed.net
  ∧ isinstance_CopyNode Mixed.X1 = true
  ∧ no_nondangling Mixed.X1
  ∧ visit_copy (Mixed.X1, get_first_nondangling Mixed.X1) empty_locals
    = (inr (), mkLocals ∅ ∅ {[2%positive := PyDict]})
  ∧ build_maps Mixed.net
    = (inl AttributeError,
       mkLocals {[Mixed.a := Some Mixed.a]} ∅
                {[2%positive := PyDict; 3%positive := PyDict]})
  ∧ (∀ S (algorithm : Algorithm S) s,
       get_path Mixed.net algorithm s = (inl AttributeError, s)).
Proof.
  split_and!; try by vm_compute.
  - apply (bool_decide_unpack _). vm_compute. exact I.
  - apply (bool_decide_unpack _). vm_compute. exact I.
Qed.

(** C4: on [Hyperedge.net] the loop raises right after line 64 has stored
    the first edge [a] of the copy node: the edges [b] and [c] never become
    keys of the edge-identity map, while the map of the specification sends
    all three to [a]. *)
Theorem edge_map_hyperedge_cut_short :
  build_maps Hyperedge.net
  = (inl AttributeError,
     mkLocals {[Hyperedge.a := Some Hyperedge.a]} ∅ {[1%positive := PyDict]})
  ∧ edge_map (build_maps Hyperedge.net).2 !! Hyperedge.b = None
  ∧ edge_map (build_maps Hyperedge.net).2 !! Hyperedge.c = None
  ∧ spec_edge_identity Hyperedge.net
    = {[Hyperedge.a := Hyperedge.a; Hyperedge.b := Hyperedge.a;
        Hyperedge.c := Hyperedge.a]}.
Proof. split_and!; by vm_compute. Qed.

(** C1: on [Hyperedge.net] [get_path] raises before line 73 is reached, and
    line 73 itself builds the input sets from the raw edges: [P], [Q], [R]
    get the three independent sets [{a}], [{b}], [{c}], where the
    specification has [{a}] three times. *)
Theorem input_sets_hyperedge_unmapped :
  (∀ S (algorithm : Algorithm S) s,
     get_path Hyperedge.net algorithm s = (inl AttributeError, s))
  ∧ sorted_nodes Hyperedge.net = [Hyperedge.P; Hyperedge.Q; Hyperedge.R]
  ∧ input_sets Hyperedge.net
    = [{[Hyperedge.a]}; {[Hyperedge.b]}; {[Hyperedge.c]}]
  ∧ spec_input_sets Hyperedge.net
    = [{[Hyperedge.a]}; {[Hyperedge.a]}; {[Hyperedge.a]}]
  ∧ input_sets Hyperedge.net ≠ spec_input_sets Hyperedge.net.
Proof.
  assert (unique_signatures Hyperedge.net) as Huniq
    by (apply (bool_decide_unpack _); vm_compute; exact I).
  unfold input_sets, spec_input_sets.
  rewrite (sorted_nodes_distinct order Hyperedge.net Huniq).
  split_and!; by vm_compute.
Qed.

(** * Further properties *)

(** ** [multi_remove], continued *)

Section multi_remove_more.
Context {A : Type}.
Implicit Types (elems : list A) (indices : list Z).

Lemma multi_remove_from_id elems indices j :
  (∀ i : nat, (i < length elems)%nat → Z.of_nat (j + i) ∉ indices) →
  multi_remove_from j elems indices = elems.
Proof.
  revert j. induction elems as [|x rest IH]; intros j Hnot; [done|].
  simpl. rewrite bool_decide_eq_true_2.
  - f_equal. apply IH. intros i Hi.
    replace (S j + i)%nat with (j + S i)%nat by lia. apply Hnot. simpl. lia.
  - specialize (Hnot 0%nat). rewrite Nat.add_0_r in Hnot.
    apply Hnot. simpl. lia.
Qed.

Lemma filter_length_all {B} (P : B → Prop) `{!∀ x, Decision (P x)}
    (l : list B) :
  length (filter P l) = length l → Forall P l.
Proof.
  induction l as [|x l IH]; [constructor|].
  rewrite filter_cons. pose proof (length_filter P l) as Hle.
  case_decide; simpl; intros Hlen.
  - constructor; [done|]. apply IH. lia.
  - lia.
Qed.

(** X1: [multi_remove] returns the list unchanged exactly when no position of
    the list occurs in [indices]; in particular for an empty [indices], and
    for indices that are all negative or past the end. *)
Theorem multi_remove_unchanged_iff elems indices :
  multi_remove elems indices = elems
  ↔ ∀ j : nat, (j < length elems)%nat → Z.of_nat j ∉ indices.
Proof.
  split.
  - intros Heq j Hj.
    assert (length (multi_remove elems indices) = length elems) as Hlen
      by by rewrite Heq.
    unfold multi_remove in Hlen. rewrite multi_remove_from_length in Hlen.
    unfold kept_from in Hlen.
    assert (length (filter (λ k : nat, Z.of_nat k ∉ indices)
                      (seq 0 (length elems)))
            = length (seq 0 (length elems))) as Hall
      by by rewrite length_seq.
    apply filter_length_all in Hall. rewrite Forall_forall in Hall.
    apply Hall, elem_of_seq. lia.
  - intros Hnot. by apply multi_remove_from_id.
Qed.

Lemma multi_remove_from_shift elems indices j k :
  multi_remove_from (j + k) elems indices
  = multi_remove_from k elems ((λ i, i - Z.of_nat j) <$> indices).
Proof.
  revert k. induction elems as [|x rest IH]; intros k; [done|].
  simpl. replace (S (j + k)%nat) with (j + S k)%nat by lia. rewrite IH.
  assert (Z.of_nat (j + k) ∈ indices
          ↔ Z.of_nat k ∈ (λ i, i - Z.of_nat j) <$> indices) as Hiff.
  { rewrite list_elem_of_fmap. split.
    - intros Hin. exists (Z.of_nat (j + k)). split; [lia|done].
    - intros (i & Hi & Hin). by replace (Z.of_nat (j + k)) with i by lia. }
  repeat case_bool_decide; try done; tauto.
Qed.

Lemma multi_remove_from_app (l1 l2 : list A) indices j :
  multi_remove_from j (l1 ++ l2) indices
  = multi_remove_from j l1 indices
    ++ multi_remove_from (j + length l1)%nat l2 indices.
Proof.
  revert j. induction l1 as [|x l1 IH]; intros j; simpl.
  - by rewrite Nat.add_0_r.
  - rewrite IH. replace (S j + length l1)%nat with (j + S (length l1))%nat by lia.
    by case_bool_decide.
Qed.

(** X2: [multi_remove] works through a concatenation piece by piece: the
    indices apply to the first part as they are and to the second part
    shifted down by the length of the first. *)
Theorem multi_remove_app (l1 l2 : list A) indices :
  multi_remove (l1 ++ l2) indices
  = multi_remove l1 indices
    ++ multi_remove l2 ((λ i, i - Z.of_nat (length l1)) <$> indices).
Proof.
  unfold multi_remove. rewrite multi_remove_from_app. f_equal.
  rewrite <-multi_remove_from_shift. f_equal. lia.
Qed.

Lemma multi_remove_from_single elems j i :
  multi_remove_from j elems [Z.of_nat (j + i)] = delete i elems.
Proof.
  revert j i. induction elems as [|x rest IH]; intros j i; [done|].
  simpl. destruct i as [|i].
  - rewrite Nat.add_0_r, bool_decide_eq_false_2
      by (intros Hnot; apply Hnot; by left).
    simpl. apply multi_remove_from_id. intros i _.
    rewrite list_elem_of_singleton. lia.
  - rewrite bool_decide_eq_true_2 by (rewrite list_elem_of_singleton; lia).
    simpl. f_equal. replace (j + S i)%nat with (S j + i)%nat by lia. apply IH.
Qed.

(** X3: with a single index [i] that is not negative, [multi_remove] deletes
    the element at position [i], and nothing when [i] is past the end; a
    negative index removes nothing (it does not count from the end). *)
Theorem multi_remove_single elems (i : nat) :
  multi_remove elems [Z.of_nat i] = delete i elems
  ∧ ((length elems ≤ i)%nat → multi_remove elems [Z.of_nat i] = elems)
  ∧ (∀ z, z < 0 → multi_remove elems [z] = elems).
Proof.
  split_and!.
  - apply (multi_remove_from_single elems 0 i).
  - intros Hi. apply multi_remove_from_id. intros k Hk.
    rewrite list_elem_of_singleton. simpl. lia.
  - intros z Hz. apply multi_remove_from_id. intros k Hk.
    rewrite list_elem_of_singleton. lia.
Qed.

(** X4: the result of [multi_remove] is no longer than the list, and shorter
    by at most the number of entries of [indices]. *)
Theorem multi_remove_length_bounds elems indices :
  (length (multi_remove elems indices) ≤ length elems)%nat
  ∧ (length elems ≤ length (multi_remove elems indices) + length indices)%nat.
Proof.
  unfold multi_remove. rewrite multi_remove_from_length. unfold kept_from.
  set (P := λ k : nat, Z.of_nat k ∉ indices).
  set (l := seq 0 (length elems)).
  assert (length elems = length l) as -> by (unfold l; by rewrite length_seq).
  split; [apply length_filter|].
  pose proof (filter_app_complement P l) as Hperm.
  apply Permutation_length in Hperm. rewrite length_app in Hperm.
  assert (length (filter (λ x, ¬ P x) l) ≤ length indices)%nat; [|lia].
  rewrite <-(length_fmap Z.of_nat).
  apply submseteq_length, NoDup_submseteq.
  - apply (NoDup_fmap_2 _), NoDup_filter, NoDup_seq.
  - intros z (k & -> & Hk)%list_elem_of_fmap.
    apply list_elem_of_filter in Hk as [Hk _]. unfold P in Hk.
    by destruct (decide (Z.of_nat k ∈ indices)).
Qed.
End multi_remove_more.

(** ** The exceptions of the loop *)

Lemma other_ends_empty copy e :
  other_ends copy e = ∅ ↔ trace_edge copy e.
Proof.
  unfold other_ends, trace_edge. split.
  - intros Hempty.
    assert (∀ x : option positive, x ∈ ({[Some (node1 e); node2 e]} : gset _) →
                 x = Some (node_id copy)) as Hall.
    { intros x Hx. destruct (decide (x = Some (node_id copy))); [done|].
      assert (x ∈ (∅ : gset (option positive))) as Hin.
      { rewrite <-Hempty. apply elem_of_difference. split; [done|].
        by rewrite elem_of_singleton. }
      by apply not_elem_of_empty in Hin. }
    split.
    + assert (Some (node1 e) = Some (node_id copy)) as [= ->]; [|done].
      apply Hall, elem_of_union_l. by apply elem_of_singleton.
    + apply Hall, elem_of_union_r. by apply elem_of_singleton.
  - intros [-> ->]. apply leibniz_equiv. intros x.
    rewrite elem_of_difference, elem_of_union, !elem_of_singleton.
    split; [|by intros ?%not_elem_of_empty]. intros [[?|?] ?]; done.
Qed.

Lemma raised_at_trace copy e :
  raised_at copy e
  = if bool_decide (trace_edge copy e) then KeyError else AttributeError.
Proof.
  unfold raised_at. case_decide as H; apply other_ends_empty in H || idtac.
  - by rewrite bool_decide_eq_true_2.
  - rewrite bool_decide_eq_false_2; [done|]. by rewrite <-other_ends_empty.
Qed.

(** X5: the pass of the loop of lines 60 to 70 over a copy node that has a
    non-dangling edge stores its representative [e] under itself in
    [edge_map] and then raises: [KeyError] from the [pop] of line 65 when
    [e] is a trace edge of the copy node, [AttributeError] from the [add] of
    line 66 otherwise.  [node_to_copies] is left as it was. *)
Theorem visit_copy_raises copy e st :
  get_first_nondangling copy = Some e →
  visit_copy (copy, Some e) st
  = (inl (if bool_decide (trace_edge copy e) then KeyError
          else AttributeError),
     mkLocals (<[e := Some e]> (edge_map st)) (node_to_copies st)
              (<[node_id copy := PyDict]> (copy_to_nodes st))).
Proof.
  intros Hrep. pose proof (visit_copy_representative copy st) as Hv.
  rewrite Hrep in Hv. by rewrite Hv, raised_at_trace.
Qed.

(** X6: the loop of lines 56 to 70 ends without an exception exactly when no
    copy node of the network has a non-dangling edge; an exception of the
    loop is an [AttributeError] or a [KeyError], and [get_path] passes it on
    without calling the algorithm, whose state is left as it was. *)
Theorem build_maps_raises_iff (net : TensorNetwork) :
  ((build_maps net).1 = inr () ↔ Forall no_nondangling (copy_keys net))
  ∧ (∀ ex, (build_maps net).1 = inl ex →
       (ex = AttributeError ∨ ex = KeyError)
       ∧ ∀ S (algorithm : Algorithm S) s,
           get_path net algorithm s = (inl ex, s)).
Proof.
  rewrite build_maps_outcome. split.
  - rewrite <-loop_exception_None.
    destruct (loop_exception (copy_keys net)); split; congruence.
  - intros ex Hex. destruct (loop_exception (copy_keys net)) as [ex'|] eqn:Hloop;
      [|done]. injection Hex as ->. split.
    + apply loop_exception_Some in Hloop as (? & c & ? & e & _ & _ & _ & ->).
      apply raised_at_cases.
    + intros S algorithm s. by rewrite get_path_unfold, Hloop.
Qed.

Lemma get_first_nondangling_Some node e :
  get_first_nondangling node = Some e → e ∈ edges node ∧ is_dangling e = false.
Proof.
  unfold get_first_nondangling. intros Hrep.
  pose proof (first_nondangling_split (edges node)) as H.
  rewrite Hrep in H. destruct H as (pre & post & -> & _ & He).
  split; [|done]. apply elem_of_app. right. by left.
Qed.

(** X7: whatever the network, the loop of lines 56 to 70 never puts a
    neighbour into the adjacency maps: [node_to_copies] stays empty and
    every value of [copy_to_nodes] is the empty dict of line 61.  When the
    loop ends without an exception [edge_map] is empty; when it raises,
    [edge_map] holds exactly one entry, a non-dangling edge stored under
    itself. *)
Theorem build_maps_adjacency_empty (net : TensorNetwork) :
  node_to_copies (build_maps net).2 = ∅
  ∧ (∀ i c, copy_to_nodes (build_maps net).2 !! i = Some c → c = PyDict)
  ∧ ((build_maps net).1 = inr () → edge_map (build_maps net).2 = ∅)
  ∧ (∀ ex, (build_maps net).1 = inl ex →
       ∃ e, edge_map (build_maps net).2 = {[e := Some e]}
            ∧ is_dangling e = false)
  ∧ (∀ e r, edge_map (build_maps net).2 !! e = Some r →
       r = Some e ∧ is_dangling e = false
       ∧ edge_map (build_maps net).2 = {[e := Some e]}).
Proof.
  rewrite build_maps_outcome. unfold build_maps. rewrite copy_nodes_items.
  destruct (loop_exception (copy_keys net)) as [ex|] eqn:Hloop.
  - apply loop_exception_Some in Hloop
      as (pre & copy & rest & e & -> & Hpre & Hrep & ->).
    rewrite (for_each_visit_copy_tied pre copy rest e) by done.
    pose proof (get_first_nondangling_Some _ _ Hrep) as [_ He].
    simpl. rewrite insert_empty. split_and!; try done.
    + intros i c. rewrite lookup_insert, lookup_union, lookup_gset_to_gmap.
      rewrite lookup_empty, option_guard_decide.
      repeat case_decide; intros Hc; compute in Hc; congruence.
    + intros ex _. by exists e.
    + intros e' r Hl. by apply lookup_singleton_Some in Hl as [<- <-].
  - apply loop_exception_None in Hloop.
    rewrite for_each_visit_copy_loose by done. simpl. split_and!; try done.
    intros i c. rewrite lookup_union, lookup_gset_to_gmap.
    rewrite lookup_empty, option_guard_decide.
    repeat case_decide; intros Hc; compute in Hc; congruence.
Qed.

(** ** The size table and the input sets *)

Lemma size_dict_Some net e d :
  size_dict net !! e = Some d ↔ e ∈ get_all_edges net ∧ d = dimension e.
Proof.
  unfold size_dict. rewrite lookup_set_to_map.
  - split.
    + intros (y & Hy & [= -> ->]). done.
    + intros [He ->]. by exists e.
  - intros y y' _ _ Heq. done.
Qed.

(** X8: the size table of line 75 sends exactly the edges of the network to
    their dimensions; every edge of every input set of line 73 and every
    edge of the output set of line 74 is a key of it. *)
Theorem size_dict_covers_edges (net : TensorNetwork) :
  (∀ e, size_dict net !! e
        = if decide (e ∈ get_all_edges net) then Some (dimension e) else None)
  ∧ dom (size_dict net) = get_all_edges net
  ∧ (∀ s, s ∈ input_sets net → s ⊆ dom (size_dict net))
  ∧ output_set net ⊆ dom (size_dict net).
Proof.
  assert (∀ e, size_dict net !! e
        = if decide (e ∈ get_all_edges net) then Some (dimension e) else None)
    as Hlookup.
  { intros e. case_decide as He.
    - by apply size_dict_Some.
    - destruct (size_dict net !! e) as [d|] eqn:Hd; [|done].
      apply size_dict_Some in Hd as [? _]. done. }
  assert (dom (size_dict net) = get_all_edges net) as Hdom.
  { apply leibniz_equiv. intros e. rewrite elem_of_dom, Hlookup.
    case_decide; split; try done; by intros [? ?]. }
  split_and!; [done..| |].
  - intros s Hs e He. rewrite Hdom. unfold input_sets in Hs.
    apply list_elem_of_fmap in Hs as (node & -> & Hnode).
    apply elem_of_list_to_set in He. apply elem_of_get_all_edges.
    exists node. split; [|done].
    rewrite sorted_nodes_Permutation in Hnode.
    unfold ordinary_nodes in Hnode.
    by apply list_elem_of_filter in Hnode as [_ ?].
  - intros e He. rewrite Hdom. by apply elem_of_output_set in He as [? _].
Qed.

(** X9: line 73 builds one input set per ordinary node, the set at position
    [i] from the edges of the node at position [i] of the node list; the
    edges that occur in input sets are exactly the edges of ordinary nodes.
    So an edge of the output set that lies on copy nodes only (a dangling
    edge of a copy node) occurs in no input set. *)
Theorem input_sets_from_ordinary_nodes (net : TensorNetwork) :
  length (input_sets net) = length (ordinary_nodes net)
  ∧ (∀ i node, sorted_nodes net !! i = Some node →
       input_sets net !! i = Some (list_to_set (edges node)))
  ∧ (∀ e, (∃ s, s ∈ input_sets net ∧ e ∈ s)
          ↔ ∃ node, node ∈ nodes_set net
                    ∧ isinstance_CopyNode node = false ∧ e ∈ edges node)
  ∧ (∀ e, e ∈ output_set net →
       (∀ node, node ∈ nodes_set net → e ∈ edges node →
                isinstance_CopyNode node = true) →
       ∀ s, s ∈ input_sets net → e ∉ s).
Proof.
  assert (∀ e, (∃ s, s ∈ input_sets net ∧ e ∈ s)
          ↔ ∃ node, node ∈ nodes_set net
                    ∧ isinstance_CopyNode node = false ∧ e ∈ edges node)
    as Hedges.
  { intros e. unfold input_sets. split.
    - intros (s & Hs & He).
      apply list_elem_of_fmap in Hs as (node & -> & Hnode).
      apply elem_of_list_to_set in He.
      rewrite sorted_nodes_Permutation in Hnode.
      apply list_elem_of_filter in Hnode as [? ?]. by exists node.
    - intros (node & Hnode & Hord & He).
      exists (list_to_set (edges node)). split.
      + apply list_elem_of_fmap. exists node. split; [done|].
        rewrite sorted_nodes_Permutation.
        by apply list_elem_of_filter.
      + by apply elem_of_list_to_set. }
  split_and!; [| |done|].
  - unfold input_sets.
    rewrite length_fmap. apply Permutation_length, sorted_nodes_Permutation.
  - intros i node Hi. unfold input_sets. by rewrite list_lookup_fmap, Hi.
  - intros e _ Hcopy s Hs He.
    destruct (proj1 (Hedges e)) as (node & Hnode & Hord & Hin); [by exists s|].
    specialize (Hcopy node Hnode Hin). congruence.
Qed.

(** ** The representative of a copy node *)

(** X10: the edge that [get_first_nondangling] returns for a node of the
    network is an edge of that node and a non-dangling edge of the network;
    it is never in the output set of line 74, and the size table of line 75
    holds its dimension. *)
Theorem representative_is_contracted (net : TensorNetwork) (copy : Node)
    (e : Edge) :
  copy ∈ nodes_set net →
  get_first_nondangling copy = Some e →
  e ∈ edges copy
  ∧ e ∈ get_all_nondangling net
  ∧ (e ∉ output_set net)
  ∧ size_dict net !! e = Some (dimension e).
Proof.
  intros Hin Hrep. apply get_first_nondangling_Some in Hrep as [He Hnd].
  assert (e ∈ get_all_edges net) as Hall
    by (apply elem_of_get_all_edges; by exists copy).
  split_and!; [done| | |].
  - unfold get_all_nondangling. by apply elem_of_filter.
  - rewrite elem_of_output_set. intros [_ ?]. congruence.
  - by apply size_dict_Some.
Qed.

(** ** Independence of the iteration order *)

Lemma get_all_edges_Permutation net net' :
  nodes_set net' ≡ₚ nodes_set net → get_all_edges net' = get_all_edges net.
Proof.
  intros Hperm. apply leibniz_equiv. intros e.
  rewrite !elem_of_get_all_edges. by setoid_rewrite Hperm.
Qed.

Lemma copy_keys_Permutation net net' :
  nodes_set net' ≡ₚ nodes_set net → copy_keys net' ≡ₚ copy_keys net.
Proof. intros Hperm. unfold copy_keys. by rewrite Hperm. Qed.

(** X11: on a network with distinct signatures, what [get_path] builds does
    not depend, by value, on the iteration order of [nodes_set] nor on that
    of the set of line 53: the node list, the input sets, the output set
    and the size table are equal as list, sets and dict, and the loop
    raises in one order exactly when it raises in the other.  (In which
    order Python iterates the sets and the dict that the algorithm
    receives is outside this statement.) *)
Theorem get_path_request_iteration_order (net net' : TensorNetwork)
    (order' : SetOrder) :
  unique_signatures net →
  nodes_set net' ≡ₚ nodes_set net →
  @sorted_nodes order' net' = @sorted_nodes order net
  ∧ @input_sets order' net' = @input_sets order net
  ∧ output_set net' = output_set net
  ∧ size_dict net' = size_dict net
  ∧ ((build_maps net').1 = inr () ↔ (build_maps net).1 = inr ()).
Proof.
  intros Huniq Hperm.
  assert (@sorted_nodes order' net' = @sorted_nodes order net) as Hsorted.
  { rewrite (sorted_nodes_distinct order net Huniq).
    rewrite (sorted_nodes_ordinary order' net'). symmetry.
    apply sorted_Permutation_eq.
    - by apply NoDup_fmap_key_inj.
    - rewrite set_iter_Permutation. symmetry.
      by apply ordinary_nodes_Permutation. }
  pose proof (get_all_edges_Permutation net net' Hperm) as Hall.
  split_and!.
  - done.
  - unfold input_sets. by rewrite Hsorted.
  - unfold output_set, get_all_nondangling. by rewrite Hall.
  - unfold size_dict. by rewrite Hall.
  - rewrite !build_maps_outcome.
    assert (loop_exception (copy_keys net') = None
            ↔ loop_exception (copy_keys net) = None) as [H1 H2].
    { rewrite !loop_exception_None.
      by rewrite (copy_keys_Permutation net net' Hperm). }
    destruct (loop_exception (copy_keys net)),
             (loop_exception (copy_keys net')); split; intros ?; try done.
    + by specialize (H1 eq_refl).
    + by specialize (H2 eq_refl).
Qed.

End properties.

(** * Runs on the test networks *)

(** The runs take the set order [source_order]. *)
#[local] Existing Instance source_order.

(** On [LooseCopy.net] the call returns the node list [P], [Q], and the
    other iteration orders give the same list. *)
Lemma sorted_nodes_by_signature_witness :
  get_path LooseCopy.net trivial_algorithm ()
  = (inr ([], sorted_nodes LooseCopy.net), ())
  ∧ @sorted_nodes reversed_order LooseCopy.net'
    = @sorted_nodes source_order LooseCopy.net
  ∧ sorted_nodes LooseCopy.net = [LooseCopy.P; LooseCopy.Q].
Proof.
  destruct (@sorted_nodes_by_signature source_order LooseCopy.net)
    as (_ & _ & _ & Hret & _ & Hsame).
  split_and!.
  - apply Hret; [|reflexivity].
    apply (bool_decide_unpack _). vm_compute. exact I.
  - apply Hsame.
    + unfold unique_signatures. by apply (bool_decide_unpack _); vm_compute.
    + vm_compute. apply Permutation_cons_append.
  - reflexivity.
Defined.

(** Outside the data model, where two nodes carry one signature, the sort
    leaves them in the iteration order of the set of line 53, which the
    code does not choose: this is why the last part of the theorem asks for
    distinct signatures. *)
Example sorted_nodes_ties :
  @sorted_nodes source_order Ties.net = [Ties.A; Ties.B]
  ∧ @sorted_nodes reversed_order Ties.net = [Ties.B; Ties.A].
Proof. by vm_compute. Qed.

(** The triangle of the specification's scenarios: node list, input sets and
    output set, as handed to the recording algorithm. *)
Example get_path_triangle :
  get_path Triangle.net recorder []
  = (inr ([], [Triangle.A; Triangle.B; Triangle.C]),
     [([{[Triangle.AB; Triangle.AC]}; {[Triangle.AB; Triangle.BC]};
        {[Triangle.AC; Triangle.BC; Triangle.C_out]}],
       {[Triangle.C_out]},
       {[Triangle.AB := 2; Triangle.BC := 3; Triangle.AC := 4;
         Triangle.C_out := 5]})]).
Proof. by vm_compute. Qed.

(** [LooseCopy.net]: the call returns the (empty) path of the algorithm and
    the ordinary nodes [P], [Q]. *)
Lemma loose_copy_node_harmless_witness :
  build_maps LooseCopy.net
  = (inr (), mkLocals ∅ ∅ {[1%positive := PyDict]})
  ∧ get_path LooseCopy.net trivial_algorithm ()
    = (inr ([], [LooseCopy.P; LooseCopy.Q]), ()).
Proof.
  assert (LooseCopy.X ∈ nodes_set LooseCopy.net) as Hin
    by (apply (bool_decide_unpack _); vm_compute; exact I).
  assert (no_nondangling LooseCopy.X) as Hloose
    by (apply (bool_decide_unpack _); vm_compute; exact I).
  assert (Forall no_nondangling (copy_keys LooseCopy.net)) as Hall
    by (apply (bool_decide_unpack _); vm_compute; exact I).
  destruct (loose_copy_node_harmless LooseCopy.net trivial_algorithm ()
              LooseCopy.X Hin eq_refl Hloose) as (_ & _ & _ & Hnet).
  destruct (Hnet Hall) as [Hmaps Hget]. split.
  - rewrite Hmaps. by vm_compute.
  - rewrite Hget. by vm_compute.
Defined.

Lemma get_path_repeatable_witness :
  (get_path LooseCopy.net trivial_algorithm
     (get_path LooseCopy.net trivial_algorithm ()).2).1
  = (get_path LooseCopy.net trivial_algorithm ()).1.
Proof.
  apply (get_path_repeatable LooseCopy.net trivial_algorithm ()).
  intros ins out sizes s s'. reflexivity.
Defined.

(** Without that condition two calls can differ: the counting algorithm
    answers the second call with another path. *)
Example get_path_counting_differs :
  (get_path LooseCopy.net counting 0).1
  = inr ([(0, 0)], [LooseCopy.P; LooseCopy.Q])
  ∧ (get_path LooseCopy.net counting (get_path LooseCopy.net counting 0).2).1
    = inr ([(1, 1)], [LooseCopy.P; LooseCopy.Q]).
Proof. by vm_compute. Qed.

(** C3, as stated, fails: on the empty network [get_path] raises nothing and
    returns the answer of the algorithm with an empty node list. *)
Lemma get_path_empty_network_returns :
  ordinary_nodes CopyOnly.empty = []
  ∧ get_path CopyOnly.empty trivial_algorithm () = (inr ([], []), ()).
Proof. by vm_compute. Qed.

Lemma get_path_no_ordinary_nodes_witness :
  input_sets CopyOnly.net = []
  ∧ get_path CopyOnly.net trivial_algorithm ()
    = returned [] (trivial_algorithm [] (output_set CopyOnly.net)
                     (size_dict CopyOnly.net) ()).
Proof.
  apply (get_path_no_ordinary_nodes CopyOnly.net trivial_algorithm ()).
  - reflexivity.
  - apply (bool_decide_unpack _). vm_compute. exact I.
Defined.

Lemma visit_copy_raises_witness :
  visit_copy (SelfLoop.X, Some SelfLoop.t) empty_locals
  = (inl KeyError,
     mkLocals {[SelfLoop.t := Some SelfLoop.t]} ∅ {[1%positive := PyDict]}).
Proof.
  rewrite (visit_copy_raises SelfLoop.X SelfLoop.t empty_locals eq_refl).
  reflexivity.
Defined.

Lemma representative_is_contracted_witness :
  SingleLink.a ∈ edges SingleLink.X
  ∧ SingleLink.a ∈ get_all_nondangling SingleLink.net
  ∧ (SingleLink.a ∉ output_set SingleLink.net)
  ∧ size_dict SingleLink.net !! SingleLink.a = Some 2.
Proof.
  apply (representative_is_contracted SingleLink.net SingleLink.X SingleLink.a).
  - apply (bool_decide_unpack _). vm_compute. exact I.
  - reflexivity.
Defined.

Lemma get_path_request_iteration_order_witness :
  @sorted_nodes reversed_order LooseCopy.net'
  = @sorted_nodes source_order LooseCopy.net
  ∧ @input_sets reversed_order LooseCopy.net'
    = @input_sets source_order LooseCopy.net
  ∧ output_set LooseCopy.net' = output_set LooseCopy.net
  ∧ size_dict LooseCopy.net' = size_dict LooseCopy.net
  ∧ ((build_maps LooseCopy.net').1 = inr ()
     ↔ (build_maps LooseCopy.net).1 = inr ()).
Proof.
  apply (@get_path_request_iteration_order source_order
           LooseCopy.net LooseCopy.net' reversed_order).
  - unfold unique_signatures. by apply (bool_decide_unpack _); vm_compute.
  - vm_compute. apply Permutation_cons_append.
Defined.

(** On [SelfLoop.net] the first non-dangling edge of the copy node is its
    trace edge, and the call raises [KeyError]. *)
Example get_path_self_loop :
  ∀ S (algorithm : Algorithm S) s,
    get_path SelfLoop.net algorithm s = (inl KeyError, s).
Proof. by vm_compute. Qed.

(** The output edge-set of [LooseCopy.net]: its three dangling edges. *)
Example output_set_loose_copy :
  output_set LooseCopy.net = {[LooseCopy.d1; LooseCopy.d2; LooseCopy.o]}.
Proof. by vm_compute. Qed.
